(** * Noncommutative monomial bases: [get_ncmonomials] and [unique]

    A shallow embedding of the two functions defined in the notebook
    [generating-noncommutative-monomials.ipynb], together with the part of
    SymPy's quantum operator algebra they rely on (noncommutative products
    of [Operator], [HermitianOperator] and [Dagger] objects, as normalised
    by [Mul.flatten]). *)

From stdpp Require Import base gmap list strings sorting.
From Stdlib Require Import ZArith Lia.

#[local] Set Warnings "-clear-no-such-hyp".

Local Open Scope Z_scope.

(** ** Symbolic operators *)

(** [Operator(label)] and [HermitianOperator(label)] of
    [sympy.physics.quantum.operator].  Two operator objects compare equal
    exactly when they have the same class and the same label. *)
Record operator := Mk_operator {
  label : string;
  is_hermitian : bool
}.

Definition Operator (s : string) : operator := Mk_operator s false.
Definition HermitianOperator (s : string) : operator := Mk_operator s true.

#[global] Instance operator_eq_dec : EqDecision operator.
Proof. solve_decision. Defined.

#[global] Instance operator_countable : Countable operator.
Proof.
  refine (inj_countable' (λ g, (label g, is_hermitian g))
                         (λ p, Mk_operator p.1 p.2) _).
  by intros [].
Defined.

(** The noncommutative atoms a product is made of: an operator, or the
    unevaluated [Dagger] of a non-Hermitian operator. *)
Inductive base :=
  | Op (g : operator)
  | Dag (g : operator).

#[global] Instance base_eq_dec : EqDecision base.
Proof. solve_decision. Defined.

#[global] Instance base_countable : Countable base.
Proof.
  refine (inj_countable' (λ b, match b with Op g => inl g | Dag g => inr g end)
                         (λ s, match s with inl g => Op g | inr g => Dag g end) _).
  by intros [].
Defined.

(** [Dagger(g)]: a Hermitian operator is its own adjoint, any other
    operator yields the symbolic adjoint. *)
Definition Dagger (g : operator) : base :=
  if is_hermitian g then Op g else Dag g.

(** A product of noncommutative atoms in SymPy's normal form: the ordered
    list of factors [base ** exponent], where [Mul.flatten] has merged
    neighbouring factors with equal bases.  The empty product is [S.One]. *)
Definition Expr : Type := list (base * positive).

Definition S_One : Expr := [].

(** [b * m]: the new atom meets the leading factor of [m]; equal bases
    combine into one power, with exponent [1 + e]. *)
Definition lmul (b : base) (m : Expr) : Expr :=
  match m with
  | [] => [(b, 1%positive)]
  | (b', e) :: r =>
      if decide (b = b') then (b, (1 + e)%positive) :: r
      else (b, 1%positive) :: m
  end.

(** [m * b]: the new atom meets the trailing factor of [m]. *)
Fixpoint rmul (m : Expr) (b : base) : Expr :=
  match m with
  | [] => [(b, 1%positive)]
  | [(b', e)] =>
      if decide (b' = b) then [(b', (e + 1)%positive)]
      else [(b', e); (b, 1%positive)]
  | f :: r => f :: rmul r b
  end.

(** The product of a word of atoms, and the word a product spells. *)
Definition monomial (w : list base) : Expr := foldr lmul S_One w.

Definition word (m : Expr) : list base :=
  m ≫= λ f, replicate (Pos.to_nat f.2) f.1.

(** The degree of a product: the sum of its exponents. *)
Definition degree (m : Expr) : nat :=
  foldr (λ f n, (Pos.to_nat f.2 + n)%nat) 0%nat m.

(** SymPy's normal form: exponents are merged, so neighbouring factors
    have different bases. *)
Fixpoint normal (m : Expr) : Prop :=
  match m with
  | [] => True
  | (b, _) :: r =>
      match r with [] => True | (b', _) :: _ => b ≠ b' end ∧ normal r
  end.

(** ** The notebook's functions *)

(** An element of [_variables]: the Python integer [1] that
    [_variables.insert(0, 1)] puts in front, or one of the operators. *)
Inductive variable :=
  | PyOne
  | Var (g : operator).

(** [var * new_var] *)
Definition mul (var : variable) (new_var : Expr) : Expr :=
  match var with
  | PyOne => new_var
  | Var g => lmul (Op g) new_var
  end.

(** [unique(seq)]: the loop over [seq], threading the dictionary [seen]
    and the list [result]. *)
Definition unique_step (st : gmap Expr Z * list Expr) (item : Expr)
  : gmap Expr Z * list Expr :=
  let '(seen, result) := st in
  let marker := item in
  if decide (is_Some (seen !! marker)) then (seen, result)
  else (<[marker := 1]> seen, result ++ [item]).

Definition unique (seq : list Expr) : list Expr :=
  (foldl unique_step (∅, []) seq).2.

(** The body of the innermost loop of [get_ncmonomials]: one or two
    [temp.append] calls. *)
Definition inner_body (var : variable) (temp : list Expr) (new_var : Expr)
  : list Expr :=
  let temp := temp ++ [mul var new_var] in
  match var with
  | PyOne => temp
  | Var g =>
      if negb (is_hermitian g) then temp ++ [lmul (Dagger g) new_var]
      else temp
  end.

(** One pass of [for _ in range(degree)]: the two nested loops filling
    [temp], then [unique(temp[:])]. *)
Definition fill_temp (_variables : list variable) (ncmonomials : list Expr)
  : list Expr :=
  foldl (λ temp var, foldl (inner_body var) temp ncmonomials) [] _variables.

Definition round (_variables : list variable) (ncmonomials : list Expr)
  : list Expr :=
  unique (fill_temp _variables ncmonomials).

(** [get_ncmonomials(variables, degree)].  [range(degree)] of a negative
    integer is empty, as is [Z.to_nat] of it. *)
Definition get_ncmonomials (variables : list operator) (degree : Z)
  : list Expr :=
  match variables with
  | [] => [S_One]
  | _ =>
      let _variables := PyOne :: (Var <$> variables) in
      Nat.iter (Z.to_nat degree) (round _variables) [S_One]
  end.

(** The outcome of a Python call: a returned value or a raised exception. *)
Inductive exception := ValueError | TypeError.

Inductive outcome (A : Type) :=
  | Returns (a : A)
  | Raises (e : exception).
Arguments Returns {A} a.
Arguments Raises {A} e.

(** Calling [get_ncmonomials] on a list of operators and an integer: the
    body has no [raise] statement and no guard on [degree], and none of its
    operations fails on such arguments, so every call returns. *)
Definition call_get_ncmonomials (variables : list operator) (degree : Z)
  : outcome (list Expr) :=
  Returns (get_ncmonomials variables degree).

Definition rejected {A} (o : outcome A) : Prop := ∃ e, o = Raises e.

(** ** The notebook's example: [X = [HermitianOperator('X%s' % i) for i in range(2)]] *)
Definition X0 : operator := HermitianOperator "X0".
Definition X1 : operator := HermitianOperator "X1".
Definition A_op : operator := Operator "A".

(** ** Reference descriptions the code is compared with *)

(** Stable deduplication, first occurrence wins: the head is kept and
    every later copy of it is dropped. *)
Fixpoint stable_dedup (l : list Expr) : list Expr :=
  match l with
  | [] => []
  | x :: l' => x :: filter (λ y, y ≠ x) (stable_dedup l')
  end.

(** What one pair (element of [_variables], existing monomial) appends to
    [temp]: the plain product, then the product with the adjoint when the
    variable is a non-Hermitian operator. *)
Definition products (var : variable) (m : Expr) : list Expr :=
  match var with
  | PyOne => [m]
  | Var g =>
      if is_hermitian g then [lmul (Op g) m]
      else [lmul (Op g) m; lmul (Dag g) m]
  end.

(** The atoms a list of generators offers as multiplication choices: each
    generator, and the adjoint of each non-Hermitian one. *)
Definition choices (g : operator) : list base :=
  if is_hermitian g then [Op g] else [Op g; Dag g].

Definition allowed (variables : list operator) (b : base) : Prop :=
  match b with
  | Op g => g ∈ variables
  | Dag g => g ∈ variables ∧ is_hermitian g = false
  end.

(** The round as the specification words it: outer loop over the existing
    monomials, inner loop over the generators in input order, products
    [m * g] and then [m * Dagger(g)], followed by stable deduplication. *)
Definition spec_temp (variables : list operator) (ncmonomials : list Expr)
  : list Expr :=
  m ← ncmonomials; g ← variables; b ← choices g; [rmul m b].

Definition spec_round (variables : list operator) (ncmonomials : list Expr)
  : list Expr :=
  stable_dedup (spec_temp variables ncmonomials).

(** The same description when the integer [1] that the code prepends is
    counted among the generators (so that [m * 1] is produced first). *)
Definition spec_temp_with_one (variables : list operator)
    (ncmonomials : list Expr) : list Expr :=
  m ← ncmonomials; m :: (g ← variables; b ← choices g; [rmul m b]).

Definition spec_round_with_one (variables : list operator)
    (ncmonomials : list Expr) : list Expr :=
  stable_dedup (spec_temp_with_one variables ncmonomials).

(** The sequence one round really collects, in closed form: outer loop
    over [1] followed by the generators in input order, inner loop over
    the existing monomials, each pair contributing [products]. *)
Definition round_sequence (variables : list operator) (ncmonomials : list Expr)
  : list Expr :=
  var ← PyOne :: (Var <$> variables); m ← ncmonomials; products var m.

(** A single atom as an expression, as in [var * S.One]. *)
Definition atom (b : base) : Expr := [(b, 1%positive)].

(** ** Further definitions *)

(** The dictionary [seen] as [unique] leaves it when its loop ends. *)
Definition unique_seen (seq : list Expr) : gmap Expr Z :=
  (foldl unique_step (∅, []) seq).1.

(** The words of length [n] in the order in which the loops of
    [get_ncmonomials] first produce their products: outermost the
    generator put in front, then the word it is put in front of, and last
    the plain generator before its adjoint. *)
Fixpoint words (variables : list operator) (n : nat) : list (list base) :=
  match n with
  | O => [[]]
  | S n' =>
      g ← variables; w ← words variables n'; (λ b, b :: w) <$> choices g
  end.

Definition words_upto (variables : list operator) (n : nat)
  : list (list base) :=
  i ← seq 0 (S n); words variables i.

(** The number of multiplication choices a list of generators offers: one
    for a Hermitian generator, two for any other. *)
Definition alphabet_size (variables : list operator) : nat :=
  sum_list ((λ g, if is_hermitian g then 1 else 2)%nat <$> variables).

(** ** [expectation_values] *)

(** A computation that may stop with the [IndexError] of a list subscript
    out of range. *)
Inductive py_result (A : Type) :=
  | Val (a : A)
  | IndexError.
Arguments Val {A} a.
Arguments IndexError {A}.

#[global] Instance py_result_bind : MBind py_result :=
  λ A B f m, match m with Val a => f a | IndexError => IndexError end.

(** [l[i]] for an index [i >= 0]. *)
Definition getitem {A} (l : list A) (i : nat) : py_result A :=
  match l !! i with
  | Some a => Val a
  | None => IndexError
  end.

Section expectation_values.
(** The values the measurement operators and their combinations range
    over, with the Python integer [0] the sum starts from, [+], and the
    product of an integer outcome with an operator. *)
Context {T : Type} (zero : T) (add : T → T → T) (mul : Z → T → T).

(** [exp_value += outcomes[k][i]*M[k][i]] *)
Definition exp_value_step (M : list (list T)) (outcomes : list (list Z))
    (k : nat) (acc : py_result T) (i : nat) : py_result T :=
  exp_value ← acc;
  row ← getitem outcomes k;
  c ← getitem row i;
  Mk ← getitem M k;
  x ← getitem Mk i;
  Val (add exp_value (mul c x)).

(** The body of [for k in range(len(M))]. *)
Definition exp_values_step (M : list (list T)) (outcomes : list (list Z))
    (acc : py_result (list T)) (k : nat) : py_result (list T) :=
  exp_values ← acc;
  Mk ← getitem M k;
  exp_value ← foldl (exp_value_step M outcomes k) (Val zero)
                (seq 0 (length Mk));
  Val (exp_values ++ [exp_value]).

Definition expectation_values (M : list (list T)) (outcomes : list (list Z))
  : py_result (list T) :=
  foldl (exp_values_step M outcomes) (Val []) (seq 0 (length M)).

(** The sum of the products of paired outcomes and operators, added up
    from the left starting at [0]. *)
Definition weighted_sum (row : list Z) (Mk : list T) : T :=
  foldl (λ acc cx, add acc (mul cx.1 cx.2)) zero (zip row Mk).
End expectation_values.

(** ** SymPy products and words *)

Lemma word_lmul b m : word (lmul b m) = b :: word m.
Proof.
  destruct m as [|[b' e] r]; [done|].
  unfold lmul. case_decide as Hb; [|done].
  subst b'. unfold word. cbn.
  replace (Pos.to_nat (1 + e)) with (S (Pos.to_nat e)) by lia. done.
Qed.

Lemma word_monomial w : word (monomial w) = w.
Proof.
  induction w as [|b w IH]; [done|].
  cbn. rewrite word_lmul. by f_equal.
Qed.

Lemma monomial_inj w1 w2 : monomial w1 = monomial w2 → w1 = w2.
Proof. intros H. by rewrite <-(word_monomial w1), H, word_monomial. Qed.

Lemma word_rmul m b : word (rmul m b) = word m ++ [b].
Proof.
  induction m as [|[b1 e1] r IH]; [done|].
  destruct r as [|f r'].
  - cbn [rmul]. case_decide as Hb.
    + subst b1. unfold word. cbn.
      replace (Pos.to_nat (e1 + 1)) with (Pos.to_nat e1 + 1)%nat by lia.
      rewrite replicate_add. cbn. by rewrite !app_nil_r.
    + unfold word. cbn. by rewrite !app_nil_r.
  - change (rmul ((b1, e1) :: f :: r') b) with ((b1, e1) :: rmul (f :: r') b).
    unfold word in *. cbn [mbind list_bind] in *. rewrite IH.
    by rewrite app_assoc.
Qed.

Lemma degree_word m : degree m = length (word m).
Proof.
  induction m as [|[b e] r IH]; [done|].
  unfold word in *. cbn. rewrite length_app, length_replicate. by f_equal.
Qed.

Lemma degree_monomial w : degree (monomial w) = length w.
Proof. by rewrite degree_word, word_monomial. Qed.

Lemma normal_lmul b m : normal m → normal (lmul b m).
Proof.
  destruct m as [|[b' e] r]; [done|].
  intros [Hhd Hr]. unfold lmul. case_decide as Hb.
  - subst b'. by split.
  - by split.
Qed.

Lemma normal_monomial w : normal (monomial w).
Proof. induction w as [|b w IH]; [done|]. by apply normal_lmul. Qed.

Lemma lmul_power b e r :
  match r with [] => True | (b', _) :: _ => b ≠ b' end →
  foldr lmul r (replicate (Pos.to_nat e) b) = (b, e) :: r.
Proof.
  intros Hr. induction e as [|e IH] using Pos.peano_ind.
  - change (Pos.to_nat 1) with 1%nat. cbn [replicate foldr].
    destruct r as [|[b' e'] r']; [done|].
    cbn [lmul]. by rewrite decide_False.
  - rewrite Pos2Nat.inj_succ. cbn [replicate foldr]. rewrite IH. cbn [lmul].
    rewrite decide_True by done. by rewrite Pos.add_1_l.
Qed.

Lemma monomial_word m : normal m → monomial (word m) = m.
Proof.
  induction m as [|[b e] r IH]; [done|].
  intros [Hhd Hr]. unfold monomial, word in *. cbn.
  rewrite foldr_app, (IH Hr). by apply lmul_power.
Qed.

(** ** [unique] is stable first-occurrence deduplication *)

Lemma filter_all {A} (P : A → Prop) `{!∀ x, Decision (P x)} (l : list A) :
  (∀ x, x ∈ l → P x) → filter P l = l.
Proof.
  induction l as [|a l IH]; intros Hall; [done|].
  rewrite filter_cons_True by (apply Hall; left).
  f_equal. apply IH. intros x Hx. apply Hall. by right.
Qed.

Lemma unique_loop seq seen result :
  (foldl unique_step (seen, result) seq).2 =
  result ++ filter (λ y, seen !! y = None) (stable_dedup seq).
Proof.
  revert seen result.
  induction seq as [|x seq IH]; intros seen result.
  { cbn. by rewrite app_nil_r. }
  cbn [foldl unique_step stable_dedup].
  destruct (decide (is_Some (seen !! x))) as [Hin|Hout].
  - rewrite IH. f_equal.
    rewrite filter_cons_False by (intros Hx; rewrite Hx in Hin; by destruct Hin).
    rewrite list_filter_filter. apply list_filter_iff.
    intros y. split; [|by intros [? _]]. intros Hy. split; [done|].
    intros ->. rewrite Hy in Hin. by destruct Hin.
  - apply eq_None_not_Some in Hout.
    rewrite IH, <-app_assoc. f_equal.
    rewrite filter_cons_True by done. cbn. f_equal.
    rewrite list_filter_filter. apply list_filter_iff.
    intros y. rewrite lookup_insert_None. intuition congruence.
Qed.

Lemma unique_stable_dedup seq : unique seq = stable_dedup seq.
Proof.
  unfold unique. rewrite unique_loop. cbn.
  apply filter_all. intros y _. apply lookup_empty.
Qed.

Lemma elem_of_stable_dedup x l : x ∈ stable_dedup l ↔ x ∈ l.
Proof.
  induction l as [|y l IH]; [done|].
  cbn. rewrite !elem_of_cons, list_elem_of_filter, IH.
  destruct (decide (x = y)); naive_solver.
Qed.

Lemma NoDup_stable_dedup l : NoDup (stable_dedup l).
Proof.
  induction l as [|y l IH]; cbn; [constructor|].
  apply NoDup_cons. split.
  - rewrite list_elem_of_filter. naive_solver.
  - by apply NoDup_filter.
Qed.

Lemma stable_dedup_NoDup l : NoDup l → stable_dedup l = l.
Proof.
  induction 1 as [|x l Hx Hl IH]; [done|].
  cbn. rewrite IH. f_equal.
  apply filter_all. intros y Hy ->. done.
Qed.

Lemma elem_of_unique x seq : x ∈ unique seq ↔ x ∈ seq.
Proof. rewrite unique_stable_dedup. apply elem_of_stable_dedup. Qed.

Lemma NoDup_unique seq : NoDup (unique seq).
Proof. rewrite unique_stable_dedup. apply NoDup_stable_dedup. Qed.

Lemma head_stable_dedup l : head (stable_dedup l) = head l.
Proof. by destruct l. Qed.

(** ** The nested loops in closed form *)

Lemma inner_body_products var temp m :
  inner_body var temp m = temp ++ products var m.
Proof.
  destruct var as [|g]; [done|].
  unfold inner_body, products, Dagger, mul.
  destruct (is_hermitian g); cbn; [done|].
  by rewrite <-app_assoc.
Qed.

Lemma inner_loop var temp ms :
  foldl (inner_body var) temp ms = temp ++ (ms ≫= products var).
Proof.
  revert temp. induction ms as [|m ms IH]; intros temp; cbn.
  - by rewrite app_nil_r.
  - by rewrite IH, inner_body_products, <-app_assoc.
Qed.

Lemma outer_loop vars temp ms :
  foldl (λ temp var, foldl (inner_body var) temp ms) temp vars =
  temp ++ (vars ≫= λ var, ms ≫= products var).
Proof.
  revert temp. induction vars as [|v vars IH]; intros temp; cbn.
  - by rewrite app_nil_r.
  - by rewrite IH, inner_loop, <-app_assoc.
Qed.

Lemma fill_temp_closed vars ms :
  fill_temp vars ms = vars ≫= λ var, ms ≫= products var.
Proof. unfold fill_temp. by rewrite outer_loop. Qed.

Lemma elem_of_round x vars ms :
  x ∈ round vars ms ↔ ∃ var m, var ∈ vars ∧ m ∈ ms ∧ x ∈ products var m.
Proof.
  unfold round. rewrite elem_of_unique, fill_temp_closed, list_elem_of_bind.
  setoid_rewrite list_elem_of_bind. naive_solver.
Qed.

(** ** The working set after [n] rounds *)

Lemma elem_of_products_Var x g m :
  x ∈ products (Var g) m ↔
  x = lmul (Op g) m ∨ (is_hermitian g = false ∧ x = lmul (Dag g) m).
Proof.
  unfold products. destruct (is_hermitian g).
  - rewrite list_elem_of_singleton. intuition congruence.
  - rewrite !elem_of_cons, elem_of_nil. intuition congruence.
Qed.

Lemma elem_of_products_allowed variables x var m :
  var ∈ PyOne :: (Var <$> variables) →
  x ∈ products var m →
  x = m ∨ ∃ b, allowed variables b ∧ x = lmul b m.
Proof.
  intros Hvar Hx. apply elem_of_cons in Hvar as [->|Hvar].
  - left. by apply list_elem_of_singleton in Hx.
  - right. apply list_elem_of_fmap in Hvar as (g & -> & Hg).
    apply elem_of_products_Var in Hx as [->|[Hh ->]].
    + by exists (Op g).
    + by exists (Dag g).
Qed.

Lemma allowed_products variables b m :
  allowed variables b →
  ∃ var, var ∈ PyOne :: (Var <$> variables) ∧ lmul b m ∈ products var m.
Proof.
  destruct b as [g|g]; cbn.
  - intros Hg. exists (Var g). split.
    + right. apply list_elem_of_fmap. by exists g.
    + apply elem_of_products_Var. by left.
  - intros [Hg Hh]. exists (Var g). split.
    + right. apply list_elem_of_fmap. by exists g.
    + apply elem_of_products_Var. by right.
Qed.

Lemma elem_of_rounds variables n m :
  m ∈ Nat.iter n (round (PyOne :: (Var <$> variables))) [S_One] ↔
  ∃ w, (length w ≤ n)%nat ∧ Forall (allowed variables) w ∧ m = monomial w.
Proof.
  revert m. induction n as [|n IH]; intros m.
  - cbn. rewrite list_elem_of_singleton. split.
    + intros ->. by exists [].
    + intros (w & Hlen & _ & ->). by destruct w; [|cbn in Hlen; lia].
  - rewrite Nat.iter_succ, elem_of_round. split.
    + intros (var & m' & Hvar & Hm' & Hm).
      apply IH in Hm' as (w & Hlen & Hw & ->).
      destruct (elem_of_products_allowed _ _ _ _ Hvar Hm) as [->|(b & Hb & ->)].
      * exists w. split; [lia|done].
      * exists (b :: w). cbn. split; [lia|]. split; [by constructor|done].
    + intros (w & Hlen & Hw & ->). destruct w as [|b w].
      * exists PyOne, S_One. split; [left|]. split; [|by apply list_elem_of_singleton].
        apply IH. exists []. cbn. split; [lia|done].
      * apply Forall_cons in Hw as [Hb Hw]. cbn in Hlen.
        destruct (allowed_products variables b (monomial w) Hb) as (var & Hvar & Hin).
        exists var, (monomial w). split; [done|]. split; [|done].
        apply IH. exists w. split; [lia|done].
Qed.

Lemma elem_of_get_ncmonomials variables d m :
  m ∈ get_ncmonomials variables d ↔
  ∃ w, (length w ≤ Z.to_nat d)%nat ∧ Forall (allowed variables) w ∧ m = monomial w.
Proof.
  destruct variables as [|g variables].
  - cbn. rewrite list_elem_of_singleton. split.
    + intros ->. exists []. cbn. split; [lia|done].
    + intros (w & _ & Hw & ->). destruct w as [|b w]; [done|].
      apply Forall_cons in Hw as [Hb _].
      destruct b; cbn in Hb; [|destruct Hb as [Hb _]]; by apply elem_of_nil in Hb.
  - apply (elem_of_rounds (g :: variables)).
Qed.

Lemma NoDup_get_ncmonomials variables d : NoDup (get_ncmonomials variables d).
Proof.
  destruct variables as [|g variables]; [apply NoDup_singleton|].
  cbn. destruct (Z.to_nat d) as [|n]; cbn; [apply NoDup_singleton|].
  apply NoDup_unique.
Qed.

Lemma head_round vars ms :
  head ms = Some S_One → head (round (PyOne :: vars) ms) = Some S_One.
Proof.
  intros Hms. unfold round.
  rewrite unique_stable_dedup, head_stable_dedup, fill_temp_closed.
  destruct ms as [|m ms]; [done|]. cbn in Hms. by simplify_eq.
Qed.

Lemma head_rounds vars n :
  head (Nat.iter n (round (PyOne :: vars)) [S_One]) = Some S_One.
Proof.
  induction n as [|n IH]; [done|].
  rewrite Nat.iter_succ. by apply head_round.
Qed.

Lemma head_get_ncmonomials variables d :
  head (get_ncmonomials variables d) = Some S_One.
Proof.
  destruct variables as [|g variables]; [done|]. apply head_rounds.
Qed.

(** ** Multiplying on the right *)

Lemma rmul_lmul a m b : rmul (lmul a m) b = lmul a (rmul m b).
Proof.
  destruct m as [|[c e] r]; cbn [lmul].
  - cbn. repeat case_decide; simplify_eq; done.
  - destruct r as [|f r'].
    + cbn [rmul]. repeat (case_decide; cbn [rmul lmul]); simplify_eq; try done.
      f_equal. f_equal. lia.
    + destruct (decide (a = c)) as [->|Hac].
      * change (rmul ((c, e) :: f :: r') b) with ((c, e) :: rmul (f :: r') b).
        cbn [lmul]. rewrite decide_True by done. done.
      * change (rmul ((c, e) :: f :: r') b) with ((c, e) :: rmul (f :: r') b).
        cbn [lmul]. rewrite decide_False by done. done.
Qed.

Lemma monomial_snoc w b : monomial (w ++ [b]) = rmul (monomial w) b.
Proof.
  induction w as [|a w IH]; [done|].
  cbn. unfold monomial in IH. by rewrite IH, rmul_lmul.
Qed.

(** ** Degree one *)

Lemma atom_inj : Inj (=) (=) atom.
Proof. intros b1 b2 H. unfold atom in H. by simplify_eq. Qed.

Lemma first_round variables :
  fill_temp (PyOne :: (Var <$> variables)) [S_One] =
  S_One :: (variables ≫= λ g, atom <$> choices g).
Proof.
  rewrite fill_temp_closed. cbn. f_equal.
  induction variables as [|g variables IH]; [done|].
  cbn. rewrite IH. f_equal.
  unfold products, choices. by destruct (is_hermitian g).
Qed.

Lemma choices_hermitian variables :
  Forall (λ g, is_hermitian g = true) variables →
  variables ≫= (λ g, atom <$> choices g) = atom ∘ Op <$> variables.
Proof.
  induction 1 as [|g variables Hg _ IH]; [done|].
  cbn. rewrite IH. unfold choices. by rewrite Hg.
Qed.

Lemma choices_non_hermitian variables :
  Forall (λ g, is_hermitian g = false) variables →
  variables ≫= (λ g, atom <$> choices g) =
  variables ≫= λ g, [atom (Op g); atom (Dag g)].
Proof.
  induction 1 as [|g variables Hg _ IH]; [done|].
  cbn. rewrite IH. unfold choices. by rewrite Hg.
Qed.

Lemma NoDup_choices variables :
  NoDup variables → NoDup (variables ≫= λ g, atom <$> choices g).
Proof.
  intros Hnd. apply NoDup_bind; [| |done].
  - intros g1 g2 y _ _ H1 H2.
    apply list_elem_of_fmap in H1 as (b1 & -> & H1).
    apply list_elem_of_fmap in H2 as (b2 & Hb & H2).
    apply atom_inj in Hb as ->.
    unfold choices in *.
    destruct (is_hermitian g1), (is_hermitian g2);
      set_unfold in H1; set_unfold in H2; intuition congruence.
  - intros g _. pose proof atom_inj as Hinj.
    apply (NoDup_fmap_2 atom). unfold choices.
    destruct (is_hermitian g).
    + apply NoDup_singleton.
    + apply NoDup_cons. split; [|apply NoDup_singleton].
      rewrite list_elem_of_singleton. done.
Qed.

Lemma length_bind_pair {A B} (f g : A → B) (l : list A) :
  length (l ≫= λ x, [f x; g x]) = (2 * length l)%nat.
Proof. induction l as [|x l IH]; [done|]. cbn in *. lia. Qed.

Lemma get_ncmonomials_1 variables :
  NoDup variables →
  get_ncmonomials variables 1 =
  S_One :: (variables ≫= λ g, atom <$> choices g).
Proof.
  intros Hnd. destruct variables as [|g0 variables]; [done|].
  change (get_ncmonomials (g0 :: variables) 1)
    with (round (PyOne :: (Var <$> g0 :: variables)) [S_One]).
  unfold round. rewrite unique_stable_dedup, first_round.
  apply stable_dedup_NoDup. apply NoDup_cons. split; [|by apply NoDup_choices].
  intros Hin. apply list_elem_of_bind in Hin as (g & Hin & _).
  apply list_elem_of_fmap in Hin as (b & Hb & _). done.
Qed.

(** ** The result depends only on the set of generators *)

Lemma allowed_ext vs vs' b :
  (∀ g, g ∈ vs ↔ g ∈ vs') → allowed vs b ↔ allowed vs' b.
Proof. intros H. destruct b as [g|g]; cbn; rewrite H; done. Qed.

Lemma get_ncmonomials_ext vs vs' d m :
  (∀ g, g ∈ vs ↔ g ∈ vs') →
  m ∈ get_ncmonomials vs d ↔ m ∈ get_ncmonomials vs' d.
Proof.
  intros H. rewrite !elem_of_get_ncmonomials.
  assert (∀ w, Forall (allowed vs) w ↔ Forall (allowed vs') w) as Hw.
  { intros w. apply Forall_iff. intros b. by apply allowed_ext. }
  by setoid_rewrite Hw.
Qed.

(** * The claims *)

(** C1. For every list of generators and every degree [d >= 0], the
    expressions returned by [get_ncmonomials] are, as a set, exactly the
    monomials of degree at most [d] whose factors are generators of the
    list or adjoints of its non-Hermitian generators; a Hermitian generator
    is only ever multiplied in as itself.  The set is given twice: as the
    products of words of such atoms, and as the normal-form expressions
    spelling such words. *)
Theorem get_ncmonomials_all_monomials (variables : list operator) (d : Z) :
  0 ≤ d →
  ∀ m : Expr,
    (m ∈ get_ncmonomials variables d ↔
     ∃ w, Forall (allowed variables) w ∧ m = monomial w ∧ Z.of_nat (degree m) ≤ d) ∧
    (m ∈ get_ncmonomials variables d ↔
     normal m ∧ Forall (allowed variables) (word m) ∧ Z.of_nat (degree m) ≤ d).
Proof.
  intros Hd m. rewrite elem_of_get_ncmonomials. split; split.
  - intros (w & Hlen & Hw & ->). exists w.
    rewrite degree_monomial. split; [done|]. split; [done|lia].
  - intros (w & Hw & -> & Hdeg). exists w.
    rewrite degree_monomial in Hdeg. split; [lia|done].
  - intros (w & Hlen & Hw & ->).
    rewrite word_monomial, degree_monomial.
    split; [apply normal_monomial|]. split; [done|lia].
  - intros (Hn & Hw & Hdeg). exists (word m).
    rewrite <-degree_word. split; [lia|]. split; [done|].
    by rewrite monomial_word.
Qed.

Lemma get_ncmonomials_all_monomials_witness :
  0 ≤ 2 ∧
  ∀ m : Expr,
    (m ∈ get_ncmonomials [X0; A_op] 2 ↔
     ∃ w, Forall (allowed [X0; A_op]) w ∧ m = monomial w ∧ Z.of_nat (degree m) ≤ 2) ∧
    (m ∈ get_ncmonomials [X0; A_op] 2 ↔
     normal m ∧ Forall (allowed [X0; A_op]) (word m) ∧ Z.of_nat (degree m) ≤ 2).
Proof.
  split; [lia|]. apply (get_ncmonomials_all_monomials [X0; A_op] 2). lia.
Defined.

(** C2, counterexample.  With one non-Hermitian generator [A] and the
    working set [1, A, Dagger(A)] reached after the first round, the
    sequence the code collects is not the one obtained with the outer loop
    over the monomials and products [m * g], and the next working set is
    not its deduplication either, whether or not the prepended [1] is
    counted among the generators. *)
Lemma round_not_right_products :
  fill_temp (PyOne :: (Var <$> [A_op])) (get_ncmonomials [A_op] 1)
    ≠ spec_temp [A_op] (get_ncmonomials [A_op] 1) ∧
  fill_temp (PyOne :: (Var <$> [A_op])) (get_ncmonomials [A_op] 1)
    ≠ spec_temp_with_one [A_op] (get_ncmonomials [A_op] 1) ∧
  get_ncmonomials [A_op] 2 ≠ spec_round [A_op] (get_ncmonomials [A_op] 1) ∧
  get_ncmonomials [A_op] 2
    ≠ spec_round_with_one [A_op] (get_ncmonomials [A_op] 1).
Proof.
  repeat split; intros H; vm_compute in H; discriminate H.
Qed.

(** C2, amended.  In each round the products are formed as [g * m] (an
    existing monomial multiplied on the left by [1], by a generator, or by
    the adjoint of a non-Hermitian generator); the temporary sequence is
    produced with the outer loop over [1] followed by the generators in
    input order and the inner loop over the existing monomials, the plain
    product coming right before the adjoint one; the next working set is
    the stable first-occurrence deduplication of that sequence. *)
Theorem round_left_products (variables : list operator) (d : Z) :
  variables ≠ [] →
  0 ≤ d →
  fill_temp (PyOne :: (Var <$> variables)) (get_ncmonomials variables d)
    = round_sequence variables (get_ncmonomials variables d) ∧
  get_ncmonomials variables (d + 1)
    = stable_dedup (round_sequence variables (get_ncmonomials variables d)).
Proof.
  intros Hne Hd. split; [apply fill_temp_closed|].
  destruct variables as [|g variables]; [done|].
  unfold get_ncmonomials.
  replace (Z.to_nat (d + 1)) with (S (Z.to_nat d)) by lia.
  rewrite Nat.iter_succ. unfold round at 1.
  by rewrite unique_stable_dedup, fill_temp_closed.
Qed.

Lemma round_left_products_witness :
  [A_op] ≠ [] ∧ 0 ≤ 1 ∧
  fill_temp (PyOne :: (Var <$> [A_op])) (get_ncmonomials [A_op] 1)
    = round_sequence [A_op] (get_ncmonomials [A_op] 1) ∧
  get_ncmonomials [A_op] (1 + 1)
    = stable_dedup (round_sequence [A_op] (get_ncmonomials [A_op] 1)).
Proof.
  split; [discriminate|]. split; [lia|].
  apply (round_left_products [A_op] 1); [discriminate|lia].
Defined.

(** C3, counterexample.  Called with degree [-1], [get_ncmonomials] is not
    rejected: the call returns. *)
Lemma negative_degree_not_rejected :
  -1 < 0 ∧ ¬ rejected (call_get_ncmonomials [X0] (-1)).
Proof.
  split; [lia|]. intros [e He]. discriminate He.
Qed.

(** C3, amended.  Called with a negative degree, [get_ncmonomials] performs
    no round and returns the one-element list [[S.One]]; no error is
    signalled. *)
Theorem negative_degree_returns_One (variables : list operator) (d : Z) :
  d < 0 → call_get_ncmonomials variables d = Returns [S_One].
Proof.
  intros Hd. unfold call_get_ncmonomials, get_ncmonomials.
  destruct variables as [|g variables]; [done|].
  by replace (Z.to_nat d) with 0%nat by lia.
Qed.

Lemma negative_degree_returns_One_witness :
  -3 < 0 ∧ call_get_ncmonomials [X0; A_op] (-3) = Returns [S_One].
Proof.
  split; [lia|]. apply (negative_degree_returns_One [X0; A_op] (-3)). lia.
Defined.

(** C4. For every list of generators and every degree [d >= 0], the
    returned list has no duplicates and its first element is the identity
    monomial. *)
Theorem get_ncmonomials_unique_identity_first (variables : list operator) (d : Z) :
  0 ≤ d →
  NoDup (get_ncmonomials variables d) ∧
  head (get_ncmonomials variables d) = Some S_One.
Proof.
  intros _. split; [apply NoDup_get_ncmonomials|apply head_get_ncmonomials].
Qed.

Lemma get_ncmonomials_unique_identity_first_witness :
  0 ≤ 3 ∧
  NoDup (get_ncmonomials [X0; A_op] 3) ∧
  head (get_ncmonomials [X0; A_op] 3) = Some S_One.
Proof.
  split; [lia|]. apply (get_ncmonomials_unique_identity_first [X0; A_op] 3). lia.
Defined.

(** C5. For every list of generators and every degree [d >= 1], every
    monomial returned at degree [d - 1] is returned at degree [d], and the
    set returned at degree [d] consists of the identity together with the
    products of a monomial returned at degree [d - 1] with a generator or
    with the adjoint of a non-Hermitian generator; this holds for products
    on the right and for products on the left alike. *)
Theorem get_ncmonomials_monotone_closure (variables : list operator) (d : Z) :
  1 ≤ d →
  (∀ m, m ∈ get_ncmonomials variables (d - 1) → m ∈ get_ncmonomials variables d) ∧
  (∀ m, m ∈ get_ncmonomials variables d ↔
        m = S_One ∨
        ∃ m' b, m' ∈ get_ncmonomials variables (d - 1) ∧
                allowed variables b ∧ m = rmul m' b) ∧
  (∀ m, m ∈ get_ncmonomials variables d ↔
        m = S_One ∨
        ∃ m' b, m' ∈ get_ncmonomials variables (d - 1) ∧
                allowed variables b ∧ m = lmul b m').
Proof.
  intros Hd. split; [|split]; intros m; rewrite !elem_of_get_ncmonomials.
  - intros (w & Hlen & Hw & ->). exists w. split; [lia|done].
  - split.
    + intros (w & Hlen & Hw & ->).
      destruct w as [|b w _] using rev_ind; [by left|right].
      apply Forall_app in Hw as [Hw Hb]. rewrite Forall_singleton in Hb.
      rewrite length_app in Hlen. cbn in Hlen.
      exists (monomial w), b. split; [|split; [done|apply monomial_snoc]].
      apply elem_of_get_ncmonomials. exists w. split; [lia|done].
    + intros [->|(m' & b & Hm' & Hb & ->)].
      * exists []. cbn. split; [lia|done].
      * apply elem_of_get_ncmonomials in Hm' as (w & Hlen & Hw & ->).
        exists (w ++ [b]). rewrite length_app. cbn. split; [lia|].
        split; [|by rewrite monomial_snoc].
        apply Forall_app. split; [done|by apply Forall_singleton].
  - split.
    + intros (w & Hlen & Hw & ->).
      destruct w as [|b w]; [by left|right].
      apply Forall_cons in Hw as [Hb Hw]. cbn in Hlen.
      exists (monomial w), b. split; [|done].
      apply elem_of_get_ncmonomials. exists w. split; [lia|done].
    + intros [->|(m' & b & Hm' & Hb & ->)].
      * exists []. cbn. split; [lia|done].
      * apply elem_of_get_ncmonomials in Hm' as (w & Hlen & Hw & ->).
        exists (b :: w). cbn. split; [lia|]. split; [by constructor|done].
Qed.

Lemma get_ncmonomials_monotone_closure_witness :
  1 ≤ 2 ∧
  (∀ m, m ∈ get_ncmonomials [X0; A_op] (2 - 1) → m ∈ get_ncmonomials [X0; A_op] 2) ∧
  (∀ m, m ∈ get_ncmonomials [X0; A_op] 2 ↔
        m = S_One ∨
        ∃ m' b, m' ∈ get_ncmonomials [X0; A_op] (2 - 1) ∧
                allowed [X0; A_op] b ∧ m = rmul m' b) ∧
  (∀ m, m ∈ get_ncmonomials [X0; A_op] 2 ↔
        m = S_One ∨
        ∃ m' b, m' ∈ get_ncmonomials [X0; A_op] (2 - 1) ∧
                allowed [X0; A_op] b ∧ m = lmul b m').
Proof.
  split; [lia|]. apply (get_ncmonomials_monotone_closure [X0; A_op] 2). lia.
Defined.

(** C6. For every list of [n] pairwise distinct Hermitian generators, the
    result at degree 1 is the identity followed by each generator once,
    [n + 1] elements in all, with no adjoint among them. *)
Theorem get_ncmonomials_hermitian_degree_1 (variables : list operator) :
  NoDup variables →
  Forall (λ g, is_hermitian g = true) variables →
  get_ncmonomials variables 1 = S_One :: (atom ∘ Op <$> variables) ∧
  length (get_ncmonomials variables 1) = S (length variables).
Proof.
  intros Hnd Hh.
  rewrite get_ncmonomials_1, choices_hermitian by done.
  split; [done|]. cbn. by rewrite length_fmap.
Qed.

Lemma get_ncmonomials_hermitian_degree_1_witness :
  NoDup [X0; X1] ∧
  Forall (λ g, is_hermitian g = true) [X0; X1] ∧
  get_ncmonomials [X0; X1] 1 = S_One :: (atom ∘ Op <$> [X0; X1]) ∧
  length (get_ncmonomials [X0; X1] 1) = S (length [X0; X1]).
Proof.
  assert (NoDup [X0; X1]) as Hnd.
  { apply (bool_decide_unpack _). vm_compute. exact I. }
  assert (Forall (λ g, is_hermitian g = true) [X0; X1]) as Hh.
  { repeat constructor. }
  split; [exact Hnd|]. split; [exact Hh|].
  exact (get_ncmonomials_hermitian_degree_1 [X0; X1] Hnd Hh).
Defined.

(** C7. For every list of [n] pairwise distinct non-Hermitian generators,
    the result at degree 1 is the identity followed by each generator and
    its adjoint, [2n + 1] pairwise distinct elements in all. *)
Theorem get_ncmonomials_non_hermitian_degree_1 (variables : list operator) :
  NoDup variables →
  Forall (λ g, is_hermitian g = false) variables →
  get_ncmonomials variables 1 =
    S_One :: (variables ≫= λ g, [atom (Op g); atom (Dag g)]) ∧
  length (get_ncmonomials variables 1) = S (2 * length variables) ∧
  NoDup (get_ncmonomials variables 1).
Proof.
  intros Hnd Hh. split; [|split].
  - by rewrite get_ncmonomials_1, choices_non_hermitian.
  - rewrite get_ncmonomials_1, choices_non_hermitian by done.
    cbn [length]. by rewrite length_bind_pair.
  - apply NoDup_get_ncmonomials.
Qed.

Lemma get_ncmonomials_non_hermitian_degree_1_witness :
  NoDup [A_op; Operator "B"] ∧
  Forall (λ g, is_hermitian g = false) [A_op; Operator "B"] ∧
  get_ncmonomials [A_op; Operator "B"] 1 =
    S_One :: ([A_op; Operator "B"] ≫= λ g, [atom (Op g); atom (Dag g)]) ∧
  length (get_ncmonomials [A_op; Operator "B"] 1)
    = S (2 * length [A_op; Operator "B"]) ∧
  NoDup (get_ncmonomials [A_op; Operator "B"] 1).
Proof.
  assert (NoDup [A_op; Operator "B"]) as Hnd.
  { apply (bool_decide_unpack _). vm_compute. exact I. }
  assert (Forall (λ g, is_hermitian g = false) [A_op; Operator "B"]) as Hh.
  { repeat constructor. }
  split; [exact Hnd|]. split; [exact Hh|].
  exact (get_ncmonomials_non_hermitian_degree_1 [A_op; Operator "B"] Hnd Hh).
Defined.

(** C8. For the two Hermitian generators [X0], [X1] and degree 2 the
    result is the list [1, X0, X1, X0**2, X0*X1, X1*X0, X1**2] printed in
    the notebook: as a set exactly these 7 elements, with [X0*X1] and
    [X1*X0] distinct. *)
Theorem get_ncmonomials_X_2 :
  get_ncmonomials [X0; X1] 2 =
    [ S_One; atom (Op X0); atom (Op X1);
      [(Op X0, 2%positive)];
      [(Op X0, 1%positive); (Op X1, 1%positive)];
      [(Op X1, 1%positive); (Op X0, 1%positive)];
      [(Op X1, 2%positive)] ] ∧
  (∀ m, m ∈ get_ncmonomials [X0; X1] 2 ↔
        m ∈ [ S_One; atom (Op X0); atom (Op X1);
              monomial [Op X0; Op X0]; monomial [Op X0; Op X1];
              monomial [Op X1; Op X0]; monomial [Op X1; Op X1] ]) ∧
  length (get_ncmonomials [X0; X1] 2) = 7%nat ∧
  NoDup (get_ncmonomials [X0; X1] 2) ∧
  monomial [Op X0; Op X1] ≠ monomial [Op X1; Op X0].
Proof.
  assert (get_ncmonomials [X0; X1] 2 =
    [ S_One; atom (Op X0); atom (Op X1);
      [(Op X0, 2%positive)];
      [(Op X0, 1%positive); (Op X1, 1%positive)];
      [(Op X1, 1%positive); (Op X0, 1%positive)];
      [(Op X1, 2%positive)] ]) as Heq by (vm_compute; reflexivity).
  split; [exact Heq|]. split; [|split; [|split]].
  - intros m. by rewrite Heq.
  - by rewrite Heq.
  - apply NoDup_get_ncmonomials.
  - intros H. apply monomial_inj in H. discriminate H.
Qed.

(** C9. For the empty list of generators the result is exactly
    [[S.One]], for every degree [d >= 0]. *)
Theorem get_ncmonomials_no_generators (d : Z) :
  0 ≤ d → get_ncmonomials [] d = [S_One].
Proof. intros _. reflexivity. Qed.

Lemma get_ncmonomials_no_generators_witness :
  0 ≤ 5 ∧ get_ncmonomials [] 5 = [S_One].
Proof. split; [lia|]. apply (get_ncmonomials_no_generators 5). lia. Defined.

(** C10. When a generator occurs more than once in the input list, the
    repetition is absorbed by the deduplication instead of producing a
    larger basis: at every degree [d >= 0] the result is, as a set, the
    same as for the list with one repeated occurrence removed and the same
    as for the list with every repetition removed; it has no duplicates,
    so it is a permutation of either of these results and has their
    length. *)
Theorem get_ncmonomials_duplicate_collapse
    (l1 l2 : list operator) (g : operator) (d : Z) :
  0 ≤ d →
  g ∈ l1 ++ l2 →
  (∀ m,
    (m ∈ get_ncmonomials (l1 ++ g :: l2) d ↔ m ∈ get_ncmonomials (l1 ++ l2) d) ∧
    (m ∈ get_ncmonomials (l1 ++ g :: l2) d ↔
     m ∈ get_ncmonomials (remove_dups (l1 ++ g :: l2)) d)) ∧
  NoDup (get_ncmonomials (l1 ++ g :: l2) d) ∧
  get_ncmonomials (l1 ++ g :: l2) d ≡ₚ get_ncmonomials (l1 ++ l2) d ∧
  get_ncmonomials (l1 ++ g :: l2) d
    ≡ₚ get_ncmonomials (remove_dups (l1 ++ g :: l2)) d ∧
  length (get_ncmonomials (l1 ++ g :: l2) d)
    = length (get_ncmonomials (l1 ++ l2) d) ∧
  length (get_ncmonomials (l1 ++ g :: l2) d)
    = length (get_ncmonomials (remove_dups (l1 ++ g :: l2)) d).
Proof.
  intros _ Hg.
  assert (∀ g', g' ∈ l1 ++ g :: l2 ↔ g' ∈ l1 ++ l2) as Hone.
  { intros g'. rewrite !elem_of_app, elem_of_cons. rewrite elem_of_app in Hg.
    split; [|tauto]. intros [?|[->|?]]; tauto. }
  assert (∀ g', g' ∈ l1 ++ g :: l2 ↔ g' ∈ remove_dups (l1 ++ g :: l2)) as Hall.
  { intros g'. by rewrite elem_of_remove_dups. }
  assert (get_ncmonomials (l1 ++ g :: l2) d ≡ₚ get_ncmonomials (l1 ++ l2) d)
    as Hperm1.
  { apply NoDup_Permutation; [apply NoDup_get_ncmonomials..|].
    intros m. by apply get_ncmonomials_ext. }
  assert (get_ncmonomials (l1 ++ g :: l2) d
            ≡ₚ get_ncmonomials (remove_dups (l1 ++ g :: l2)) d) as Hperm2.
  { apply NoDup_Permutation; [apply NoDup_get_ncmonomials..|].
    intros m. by apply get_ncmonomials_ext. }
  split; [|split; [|split; [|split; [|split]]]].
  - intros m. split; by apply get_ncmonomials_ext.
  - apply NoDup_get_ncmonomials.
  - exact Hperm1.
  - exact Hperm2.
  - by rewrite Hperm1.
  - by rewrite Hperm2.
Qed.

Lemma get_ncmonomials_duplicate_collapse_witness :
  0 ≤ 2 ∧ X0 ∈ [X0] ++ [A_op] ∧
  (∀ m,
    (m ∈ get_ncmonomials ([X0] ++ X0 :: [A_op]) 2 ↔
     m ∈ get_ncmonomials ([X0] ++ [A_op]) 2) ∧
    (m ∈ get_ncmonomials ([X0] ++ X0 :: [A_op]) 2 ↔
     m ∈ get_ncmonomials (remove_dups ([X0] ++ X0 :: [A_op])) 2)) ∧
  NoDup (get_ncmonomials ([X0] ++ X0 :: [A_op]) 2) ∧
  get_ncmonomials ([X0] ++ X0 :: [A_op]) 2
    ≡ₚ get_ncmonomials ([X0] ++ [A_op]) 2 ∧
  get_ncmonomials ([X0] ++ X0 :: [A_op]) 2
    ≡ₚ get_ncmonomials (remove_dups ([X0] ++ X0 :: [A_op])) 2 ∧
  length (get_ncmonomials ([X0] ++ X0 :: [A_op]) 2)
    = length (get_ncmonomials ([X0] ++ [A_op]) 2) ∧
  length (get_ncmonomials ([X0] ++ X0 :: [A_op]) 2)
    = length (get_ncmonomials (remove_dups ([X0] ++ X0 :: [A_op])) 2).
Proof.
  assert (X0 ∈ [X0] ++ [A_op]) as Hin by (cbn; left).
  split; [lia|]. split; [exact Hin|].
  apply (get_ncmonomials_duplicate_collapse [X0] [A_op] X0 2); [lia|exact Hin].
Defined.

(** * Further properties of [unique] *)

Lemma stable_dedup_app (l k : list Expr) :
  stable_dedup (l ++ k) = stable_dedup l ++ filter (λ y, y ∉ l) (stable_dedup k).
Proof.
  induction l as [|x l IH].
  - cbn. symmetry. apply filter_all. intros y _. apply not_elem_of_nil.
  - cbn [app stable_dedup]. rewrite IH, filter_app. f_equal. f_equal.
    rewrite list_filter_filter. apply list_filter_iff.
    intros y. rewrite not_elem_of_cons. tauto.
Qed.

Lemma filter_stable_dedup (P : Expr → Prop) `{!∀ x, Decision (P x)} l :
  filter P (stable_dedup l) = stable_dedup (filter P l).
Proof.
  induction l as [|x l IH]; [done|].
  cbn [stable_dedup]. destruct (decide (P x)) as [HP|HP].
  - rewrite !filter_cons_True by done. cbn [stable_dedup]. f_equal.
    rewrite <-IH, !list_filter_filter. apply list_filter_iff. tauto.
  - rewrite !filter_cons_False by done.
    rewrite <-IH, list_filter_filter. apply list_filter_iff.
    intros y. split; [tauto|]. intros Hy. split; [done|]. by intros ->.
Qed.

Lemma stable_dedup_sublist l : stable_dedup l `sublist_of` l.
Proof.
  induction l as [|x l IH]; [done|].
  cbn. apply sublist_skip. etrans; [apply sublist_filter|done].
Qed.

(** X1. [unique] returns a list without duplicates that contains exactly
    the items of its argument. *)
Theorem unique_no_duplicates_same_items (seq : list Expr) :
  NoDup (unique seq) ∧ ∀ x, x ∈ unique seq ↔ x ∈ seq.
Proof. split; [apply NoDup_unique|]. intros x. apply elem_of_unique. Qed.

(** X2. [unique] only drops items: its result is a subsequence of the
    argument, so the items kept stay in their original order, and the
    result is never longer than the argument. *)
Theorem unique_subsequence (seq : list Expr) :
  unique seq `sublist_of` seq ∧ (length (unique seq) ≤ length seq)%nat.
Proof.
  rewrite unique_stable_dedup.
  split; [apply stable_dedup_sublist|].
  apply sublist_length, stable_dedup_sublist.
Qed.

(** X3. First occurrence wins: the item at the end of a list is appended
    to the result exactly when it does not occur earlier in the list, and
    the items before it are treated as if it were not there. *)
Theorem unique_snoc (seq : list Expr) (item : Expr) :
  unique (seq ++ [item]) =
  if decide (item ∈ seq) then unique seq else unique seq ++ [item].
Proof.
  rewrite !unique_stable_dedup, stable_dedup_app. cbn [stable_dedup filter].
  case_decide as Hin.
  - rewrite filter_cons_False by tauto. cbn. by rewrite app_nil_r.
  - by rewrite filter_cons_True by done.
Qed.

(** X4. [unique] leaves a list unchanged exactly when the list has no
    duplicates; in particular applying [unique] twice is the same as
    applying it once. *)
Theorem unique_fixpoint (seq : list Expr) :
  (unique seq = seq ↔ NoDup seq) ∧ unique (unique seq) = unique seq.
Proof.
  rewrite !unique_stable_dedup. split; [split|].
  - intros <-. apply NoDup_stable_dedup.
  - apply stable_dedup_NoDup.
  - apply stable_dedup_NoDup, NoDup_stable_dedup.
Qed.

(** X5. [unique] of a concatenation: the first part is deduplicated on its
    own, and of the second part only the items absent from the first part
    survive, deduplicated among themselves. *)
Theorem unique_app (seq1 seq2 : list Expr) :
  unique (seq1 ++ seq2) =
  unique seq1 ++ unique (filter (λ y, y ∉ seq1) seq2).
Proof.
  rewrite !unique_stable_dedup, stable_dedup_app.
  by rewrite filter_stable_dedup.
Qed.

Lemma unique_loop_seen seq seen result :
  ∀ x, (foldl unique_step (seen, result) seq).1 !! x =
       if decide (x ∈ seq ∧ seen !! x = None) then Some 1 else seen !! x.
Proof.
  revert seen result.
  induction seq as [|y seq IH]; intros seen result x.
  { cbn. rewrite decide_False; [done|]. intros [H _]. by apply elem_of_nil in H. }
  cbn [foldl unique_step].
  destruct (decide (is_Some (seen !! y))) as [Hin|Hout].
  - rewrite IH. apply decide_ext. rewrite elem_of_cons.
    split; [tauto|]. intros [[->|?] Hx]; [|done].
    rewrite Hx in Hin. by destruct Hin.
  - apply eq_None_not_Some in Hout. rewrite IH.
    destruct (decide (x = y)) as [->|Hne].
    + rewrite lookup_insert_eq, decide_False by (intros [_ ?]; done).
      rewrite decide_True; [done|]. split; [left|done].
    + rewrite lookup_insert_ne by done. apply decide_ext.
      rewrite elem_of_cons. tauto.
Qed.

(** X6. When the loop of [unique] ends, the dictionary [seen] has exactly
    the items of the argument as keys, each of them with value 1. *)
Theorem unique_seen_items (seq : list Expr) (x : Expr) :
  unique_seen seq !! x = if decide (x ∈ seq) then Some 1 else None.
Proof.
  unfold unique_seen. rewrite unique_loop_seen, lookup_empty.
  apply decide_ext. tauto.
Qed.

(** * Further properties of [get_ncmonomials] *)

Lemma bind_singleton_id {A} (l : list A) : l ≫= (λ x, [x]) = l.
Proof. induction l as [|x l IH]; [done|]. cbn. by f_equal. Qed.

Lemma round_step variables ms :
  NoDup ms →
  round (PyOne :: (Var <$> variables)) ms =
  ms ++ stable_dedup
          (filter (λ y, y ∉ ms) (variables ≫= λ g, ms ≫= products (Var g))).
Proof.
  intros Hnd. unfold round.
  rewrite unique_stable_dedup, fill_temp_closed, bind_cons.
  change (ms ≫= products PyOne) with (ms ≫= λ m : Expr, [m]).
  rewrite bind_singleton_id, stable_dedup_app, stable_dedup_NoDup by done.
  by rewrite filter_stable_dedup, list_fmap_bind.
Qed.

Lemma NoDup_rounds vars n : NoDup (Nat.iter n (round vars) [S_One]).
Proof.
  destruct n as [|n]; [apply NoDup_singleton|].
  rewrite Nat.iter_succ. apply NoDup_unique.
Qed.

Lemma degree_rounds variables n m :
  m ∈ Nat.iter n (round (PyOne :: (Var <$> variables))) [S_One] →
  (degree m ≤ n)%nat.
Proof.
  intros (w & Hlen & _ & ->)%elem_of_rounds. by rewrite degree_monomial.
Qed.

Lemma rounds_succ variables n :
  ∃ new,
    Nat.iter (S n) (round (PyOne :: (Var <$> variables))) [S_One] =
    Nat.iter n (round (PyOne :: (Var <$> variables))) [S_One] ++ new ∧
    Forall (λ m, degree m = S n) new.
Proof.
  rewrite Nat.iter_succ, round_step by apply NoDup_rounds.
  eexists. split; [done|].
  apply Forall_forall. intros m Hm.
  apply elem_of_stable_dedup, list_elem_of_filter in Hm as [Hout Hm].
  apply list_elem_of_bind in Hm as (g & Hm & Hg).
  apply list_elem_of_bind in Hm as (m' & Hm & Hm').
  assert (m ∈ Nat.iter (S n) (round (PyOne :: (Var <$> variables))) [S_One])
    as Hin.
  { rewrite Nat.iter_succ. apply elem_of_round.
    exists (Var g), m'. split; [|done].
    right. apply list_elem_of_fmap. by exists g. }
  apply elem_of_rounds in Hin as (w & Hlen & Hw & ->).
  rewrite degree_monomial.
  destruct (decide (length w ≤ n)%nat) as [Hle|]; [|lia].
  destruct Hout. apply elem_of_rounds. by exists w.
Qed.

Lemma rounds_add variables n k :
  ∃ rest,
    Nat.iter (n + k) (round (PyOne :: (Var <$> variables))) [S_One] =
    Nat.iter n (round (PyOne :: (Var <$> variables))) [S_One] ++ rest ∧
    Forall (λ m, (n < degree m ≤ n + k)%nat) rest.
Proof.
  induction k as [|k (rest & Heq & Hrest)].
  - exists []. rewrite Nat.add_0_r, app_nil_r. by split.
  - destruct (rounds_succ variables (n + k)) as (new & Hnew & Hdeg).
    exists (rest ++ new). replace (n + S k)%nat with (S (n + k)) by lia.
    rewrite Hnew, Heq, <-app_assoc. split; [done|].
    apply Forall_app. split.
    + eapply Forall_impl; [done|]. intros m ?. cbn in *. lia.
    + eapply Forall_impl; [done|]. intros m ?. cbn in *. lia.
Qed.

Lemma get_ncmonomials_add variables d d' :
  0 ≤ d → d ≤ d' →
  ∃ rest,
    get_ncmonomials variables d' = get_ncmonomials variables d ++ rest ∧
    Forall (λ m, d < Z.of_nat (degree m) ≤ d') rest.
Proof.
  intros Hd Hd'. destruct variables as [|g variables].
  - exists []. by split.
  - destruct (rounds_add (g :: variables) (Z.to_nat d) (Z.to_nat (d' - d)))
      as (rest & Heq & Hrest).
    exists rest. unfold get_ncmonomials.
    replace (Z.to_nat d') with (Z.to_nat d + Z.to_nat (d' - d))%nat by lia.
    split; [done|].
    eapply Forall_impl; [done|]. intros m ?. cbn in *. lia.
Qed.

(** X7. Raising the degree only appends: for [0 <= d <= d'] the list
    returned at degree [d] is a prefix of the list returned at degree
    [d'], and every monomial after that prefix has a degree above [d]. *)
Theorem get_ncmonomials_prefix (variables : list operator) (d d' : Z) :
  0 ≤ d → d ≤ d' →
  get_ncmonomials variables d `prefix_of` get_ncmonomials variables d' ∧
  ∀ i m, get_ncmonomials variables d' !! i = Some m →
         (length (get_ncmonomials variables d) ≤ i)%nat →
         d < Z.of_nat (degree m).
Proof.
  intros Hd Hd'.
  destruct (get_ncmonomials_add variables d d' Hd Hd') as (rest & Heq & Hrest).
  split; [by exists rest|].
  intros i m Hi Hlen. rewrite Heq, lookup_app_r in Hi by done.
  apply list_elem_of_lookup_2 in Hi.
  rewrite Forall_forall in Hrest. apply Hrest in Hi. lia.
Qed.

Lemma get_ncmonomials_prefix_witness :
  0 ≤ 1 ∧ 1 ≤ 3 ∧
  get_ncmonomials [X0; A_op] 1 `prefix_of` get_ncmonomials [X0; A_op] 3 ∧
  ∀ i m, get_ncmonomials [X0; A_op] 3 !! i = Some m →
         (length (get_ncmonomials [X0; A_op] 1) ≤ i)%nat →
         1 < Z.of_nat (degree m).
Proof.
  split; [lia|]. split; [lia|].
  apply (get_ncmonomials_prefix [X0; A_op] 1 3); lia.
Defined.

(** X8. The basis of a lower degree is recovered from the basis of a
    higher degree by keeping the monomials of degree at most the lower
    one: for [0 <= d <= d'], filtering the result at degree [d'] gives
    the result at degree [d], in the same order. *)
Theorem get_ncmonomials_filter_degree (variables : list operator) (d d' : Z) :
  0 ≤ d → d ≤ d' →
  filter (λ m, Z.of_nat (degree m) ≤ d) (get_ncmonomials variables d') =
  get_ncmonomials variables d.
Proof.
  intros Hd Hd'.
  destruct (get_ncmonomials_add variables d d' Hd Hd') as (rest & -> & Hrest).
  rewrite filter_app.
  rewrite (filter_all _ (get_ncmonomials variables d)).
  - replace (filter _ rest) with (@nil Expr); [by rewrite app_nil_r|].
    symmetry. induction Hrest as [|m rest Hm _ IH]; [done|].
    rewrite filter_cons_False by lia. done.
  - intros m (w & Hlen & _ & ->)%elem_of_get_ncmonomials.
    rewrite degree_monomial. lia.
Qed.

Lemma get_ncmonomials_filter_degree_witness :
  0 ≤ 1 ∧ 1 ≤ 2 ∧
  filter (λ m, Z.of_nat (degree m) ≤ 1) (get_ncmonomials [X0; X1] 2) =
  get_ncmonomials [X0; X1] 1.
Proof.
  split; [lia|]. split; [lia|].
  apply (get_ncmonomials_filter_degree [X0; X1] 1 2); lia.
Defined.

Lemma rounds_sorted variables n :
  StronglySorted (λ m m', (degree m ≤ degree m')%nat)
    (Nat.iter n (round (PyOne :: (Var <$> variables))) [S_One]).
Proof.
  induction n as [|n IH].
  - cbn. repeat constructor.
  - destruct (rounds_succ variables n) as (new & -> & Hnew).
    apply StronglySorted_app_2; [|done|].
    + intros m m' Hm Hm'. apply degree_rounds in Hm.
      rewrite Forall_forall in Hnew. apply Hnew in Hm'. lia.
    + clear IH. induction Hnew as [|m new Hm Hnew IH']; constructor; [done|].
      eapply Forall_impl; [exact Hnew|]. intros m' Hm'. cbn in *. lia.
Qed.

(** X9. The returned list is ordered by degree: a monomial never comes
    before one of smaller degree, whatever the generators and the
    degree asked for. *)
Theorem get_ncmonomials_sorted_by_degree (variables : list operator) (d : Z) :
  StronglySorted (λ m m', (degree m ≤ degree m')%nat)
    (get_ncmonomials variables d).
Proof.
  destruct variables as [|g variables].
  - cbn. repeat constructor.
  - apply (rounds_sorted (g :: variables)).
Qed.

(** ** The exact output sequence *)

Lemma filter_none {A} (P : A → Prop) `{!∀ x, Decision (P x)} (l : list A) :
  Forall (λ x, ¬ P x) l → filter P l = [].
Proof.
  induction 1 as [|x l Hx _ IH]; [done|].
  by rewrite filter_cons_False.
Qed.

Lemma filter_bind_cases {A B} (P : B → Prop) (Q : A → Prop)
    `{!∀ y, Decision (P y), !∀ x, Decision (Q x)} (f : A → list B) l :
  (∀ x, x ∈ l → Q x → Forall P (f x)) →
  (∀ x, x ∈ l → ¬ Q x → Forall (λ y, ¬ P y) (f x)) →
  filter P (l ≫= f) = filter Q l ≫= f.
Proof.
  induction l as [|x l IH]; intros Hyes Hno; [done|].
  rewrite bind_cons, filter_app, IH.
  - destruct (decide (Q x)) as [HQ|HQ].
    + rewrite (filter_cons_True Q) by done. rewrite bind_cons. f_equal.
      apply filter_all. apply Forall_forall, Hyes; [left|done].
    + rewrite (filter_cons_False Q) by done.
      rewrite filter_none; [done|]. apply Hno; [left|done].
  - intros y Hy. apply Hyes. by right.
  - intros y Hy. apply Hno. by right.
Qed.

Lemma filter_bind {A B} (P : B → Prop) `{!∀ y, Decision (P y)}
    (f : A → list B) l :
  filter P (l ≫= f) = l ≫= λ x, filter P (f x).
Proof.
  induction l as [|x l IH]; [done|].
  by rewrite !bind_cons, filter_app, IH.
Qed.

Lemma fmap_bind {A B C} (h : B → C) (f : A → list B) l :
  h <$> (l ≫= f) = l ≫= λ x, h <$> f x.
Proof.
  induction l as [|x l IH]; [done|].
  by rewrite !bind_cons, fmap_app, IH.
Qed.

Lemma products_choices g m :
  products (Var g) m = (λ b, lmul b m) <$> choices g.
Proof. unfold products, choices. by destruct (is_hermitian g). Qed.

Lemma allowed_choices variables g b :
  g ∈ variables → b ∈ choices g → allowed variables b.
Proof.
  unfold choices. intros Hg Hb.
  destruct (is_hermitian g) eqn:Hh; set_unfold in Hb.
  - destruct Hb as [->|[]]. done.
  - destruct Hb as [->|[->|[]]]; done.
Qed.

Lemma choices_inj g1 g2 b : b ∈ choices g1 → b ∈ choices g2 → g1 = g2.
Proof.
  unfold choices. intros H1 H2.
  destruct (is_hermitian g1), (is_hermitian g2);
    set_unfold in H1; set_unfold in H2; intuition congruence.
Qed.

Lemma NoDup_choices_one g : NoDup (choices g).
Proof.
  unfold choices. destruct (is_hermitian g).
  - apply NoDup_singleton.
  - apply NoDup_cons. split; [|apply NoDup_singleton].
    rewrite list_elem_of_singleton. done.
Qed.

Lemma elem_of_words_succ variables n x :
  x ∈ words variables (S n) ↔
  ∃ g w b, g ∈ variables ∧ w ∈ words variables n ∧ b ∈ choices g ∧ x = b :: w.
Proof.
  cbn [words]. rewrite list_elem_of_bind.
  setoid_rewrite list_elem_of_bind. setoid_rewrite list_elem_of_fmap.
  naive_solver.
Qed.

Lemma length_elem_of_words variables n w :
  w ∈ words variables n → length w = n.
Proof.
  revert w. induction n as [|n IH]; intros w.
  - cbn. by intros ->%list_elem_of_singleton.
  - intros (g & w' & b & _ & Hw' & _ & ->)%elem_of_words_succ.
    cbn. f_equal. by apply IH.
Qed.

Lemma NoDup_words variables n : NoDup variables → NoDup (words variables n).
Proof.
  intros Hnd. induction n as [|n IH]; [apply NoDup_singleton|].
  cbn [words]. apply NoDup_bind; [| |done].
  - intros g1 g2 x _ _ H1 H2.
    apply list_elem_of_bind in H1 as (w1 & H1 & _).
    apply list_elem_of_bind in H2 as (w2 & H2 & _).
    apply list_elem_of_fmap in H1 as (b1 & -> & H1).
    apply list_elem_of_fmap in H2 as (b2 & Heq & H2).
    simplify_eq. by eapply choices_inj.
  - intros g _. apply NoDup_bind; [| |done].
    + intros w1 w2 x _ _ H1 H2.
      apply list_elem_of_fmap in H1 as (b1 & -> & H1).
      apply list_elem_of_fmap in H2 as (b2 & Heq & H2).
      by simplify_eq.
    + intros w _. apply NoDup_fmap_2_strong; [|apply NoDup_choices_one].
      intros b1 b2 _ _ Heq. by simplify_eq.
Qed.

Lemma words_upto_succ variables n :
  words_upto variables (S n) = words_upto variables n ++ words variables (S n).
Proof.
  unfold words_upto. rewrite (seq_S (S n)), bind_app. cbn [Nat.add].
  f_equal. cbn. by rewrite app_nil_r.
Qed.

Lemma elem_of_words_upto variables n w :
  w ∈ words_upto variables n → (length w ≤ n)%nat.
Proof.
  unfold words_upto. intros (i & Hw & Hi)%list_elem_of_bind.
  apply length_elem_of_words in Hw. apply elem_of_seq in Hi. lia.
Qed.

Lemma NoDup_words_upto variables n :
  NoDup variables → NoDup (words_upto variables n).
Proof.
  intros Hnd. unfold words_upto. apply NoDup_bind; [| |apply NoDup_seq].
  - intros i j w _ _ Hi Hj.
    apply length_elem_of_words in Hi, Hj. congruence.
  - intros i _. by apply NoDup_words.
Qed.

Lemma filter_top_degree variables n :
  filter (λ m, degree m = n) (monomial <$> words_upto variables n) =
  monomial <$> words variables n.
Proof.
  destruct n as [|n].
  - unfold words_upto. cbn. done.
  - rewrite words_upto_succ, fmap_app, filter_app.
    rewrite filter_none, filter_all; [done| |].
    + intros m (w & -> & Hw)%list_elem_of_fmap.
      rewrite degree_monomial. by apply length_elem_of_words in Hw.
    + apply Forall_forall. intros m (w & -> & Hw)%list_elem_of_fmap.
      rewrite degree_monomial. apply elem_of_words_upto in Hw. lia.
Qed.

Lemma new_words variables n :
  (variables ≫= λ g, (monomial <$> words variables n) ≫= products (Var g)) =
  monomial <$> words variables (S n).
Proof.
  cbn [words]. rewrite fmap_bind. apply list_bind_ext; [|done].
  intros g. rewrite list_fmap_bind, fmap_bind. apply list_bind_ext; [|done].
  intros w. unfold compose. rewrite products_choices, <-list_fmap_compose. done.
Qed.

(** Each round, only the monomials of top degree yield new ones. *)
Lemma round_top_degree variables n :
  Nat.iter (S n) (round (PyOne :: (Var <$> variables))) [S_One] =
  Nat.iter n (round (PyOne :: (Var <$> variables))) [S_One] ++
  stable_dedup
    (variables ≫= λ g,
       filter (λ m, degree m = n)
         (Nat.iter n (round (PyOne :: (Var <$> variables))) [S_One])
       ≫= products (Var g)).
Proof.
  rewrite Nat.iter_succ, round_step by apply NoDup_rounds.
  f_equal. f_equal. rewrite filter_bind.
  apply Forall_bind_ext, Forall_forall. intros g Hg.
  apply filter_bind_cases.
  - intros m (w & Hlen & Hw & ->)%elem_of_rounds Hdeg.
    rewrite degree_monomial in Hdeg.
    apply Forall_forall. intros y Hy Hin.
    rewrite products_choices in Hy.
    apply list_elem_of_fmap in Hy as (b & -> & Hb).
    apply degree_rounds in Hin.
    change (lmul b (monomial w)) with (monomial (b :: w)) in Hin.
    rewrite degree_monomial in Hin. cbn in Hin. lia.
  - intros m (w & Hlen & Hw & ->)%elem_of_rounds Hdeg.
    rewrite degree_monomial in Hdeg.
    apply Forall_forall. intros y Hy Hout.
    rewrite products_choices in Hy.
    apply list_elem_of_fmap in Hy as (b & -> & Hb).
    apply Hout, elem_of_rounds. exists (b :: w). cbn.
    split; [lia|]. split; [|done].
    constructor; [by eapply allowed_choices|done].
Qed.

Lemma monomial_inj_instance : Inj (=) (=) monomial.
Proof. intros w1 w2. apply monomial_inj. Qed.

Lemma rounds_words variables n :
  NoDup variables →
  Nat.iter n (round (PyOne :: (Var <$> variables))) [S_One] =
  monomial <$> words_upto variables n.
Proof.
  intros Hnd. induction n as [|n IH]; [done|].
  rewrite round_top_degree, IH, filter_top_degree, new_words.
  rewrite words_upto_succ, fmap_app. f_equal.
  apply stable_dedup_NoDup.
  pose proof monomial_inj_instance.
  apply (NoDup_fmap_2 monomial). by apply NoDup_words.
Qed.

Lemma get_ncmonomials_words_upto (variables : list operator) (d : Z) :
  NoDup variables →
  get_ncmonomials variables d = monomial <$> words_upto variables (Z.to_nat d).
Proof.
  intros Hnd. destruct variables as [|g variables].
  - change (get_ncmonomials [] d) with [S_One].
    induction (Z.to_nat d) as [|n IH]; [done|].
    rewrite words_upto_succ, fmap_app, <-IH. done.
  - by apply (rounds_words (g :: variables)).
Qed.

(** X10. The exact output, order included.  For pairwise distinct
    generators and [d >= 0] the result lists the monomials by increasing
    degree; within one degree they come grouped by the generator of their
    leftmost factor in input order, then in the order of the monomial that
    follows this factor, a plain generator right before its adjoint. *)
Theorem get_ncmonomials_sequence (variables : list operator) (d : Z) :
  NoDup variables →
  0 ≤ d →
  get_ncmonomials variables d = monomial <$> words_upto variables (Z.to_nat d).
Proof. intros Hnd _. by apply get_ncmonomials_words_upto. Qed.

Lemma get_ncmonomials_sequence_witness :
  NoDup [X0; A_op] ∧ 0 ≤ 2 ∧
  get_ncmonomials [X0; A_op] 2 = monomial <$> words_upto [X0; A_op] (Z.to_nat 2).
Proof.
  assert (NoDup [X0; A_op]) as Hnd.
  { apply (bool_decide_unpack _). vm_compute. exact I. }
  assert (0 ≤ 2) as Hd by lia.
  split; [exact Hnd|]. split; [exact Hd|].
  exact (get_ncmonomials_sequence [X0; A_op] 2 Hnd Hd).
Defined.

(** ** The size of the basis *)

Lemma length_choices g :
  length (choices g) = if is_hermitian g then 1%nat else 2%nat.
Proof. unfold choices. by destruct (is_hermitian g). Qed.

Lemma length_words variables n :
  length (words variables n) = (alphabet_size variables ^ n)%nat.
Proof.
  induction n as [|n IH]; [done|].
  cbn [words Nat.pow]. rewrite <-IH. clear IH.
  generalize (words variables n). intros ws. unfold alphabet_size.
  induction variables as [|g variables IHv]; [done|].
  rewrite bind_cons, length_app, IHv. cbn [fmap list_fmap sum_list sum_list_with].
  rewrite Nat.mul_add_distr_r. f_equal. rewrite <-length_choices.
  clear IHv. induction ws as [|w ws IHw]; [cbn; lia|].
  rewrite bind_cons, length_app, length_fmap, IHw. cbn. lia.
Qed.

Lemma length_words_upto variables n :
  length (words_upto variables n) =
  sum_list ((λ i, alphabet_size variables ^ i)%nat <$> seq 0 (S n)).
Proof.
  induction n as [|n IH].
  - unfold words_upto. cbn. done.
  - rewrite words_upto_succ, length_app, IH, length_words.
    rewrite (seq_S (S n)), fmap_app, sum_list_with_app. cbn. lia.
Qed.

Lemma geometric_sum k n :
  (sum_list ((λ i, k ^ i) <$> seq 0 (S n)) * k + 1 =
   sum_list ((λ i, k ^ i) <$> seq 0 (S n)) + k ^ S n)%nat.
Proof.
  induction n as [|n IH]; [cbn; lia|].
  rewrite (seq_S (S n)), fmap_app, sum_list_with_app.
  change (k ^ S (S n))%nat with (k * k ^ S n)%nat.
  change (sum_list ((λ i, k ^ i)%nat <$> [(0 + S n)%nat]))
    with (k ^ S n + 0)%nat.
  revert IH. generalize (sum_list ((λ i, k ^ i)%nat <$> seq 0 (S n))).
  generalize (k ^ S n)%nat. intros p s IH. nia.
Qed.

(** X11. The size of the basis.  For pairwise distinct generators offering
    [k] multiplication choices (one per Hermitian generator, two per other
    generator) and [d >= 0], the result has [1 + k + ... + k^d] elements;
    equivalently, with [L] its length, [L * k + 1 = L + k^(d+1)]. *)
Theorem get_ncmonomials_length (variables : list operator) (d : Z) :
  NoDup variables →
  0 ≤ d →
  length (get_ncmonomials variables d) =
    sum_list ((λ i, alphabet_size variables ^ i)%nat <$> seq 0 (S (Z.to_nat d))) ∧
  (length (get_ncmonomials variables d) * alphabet_size variables + 1 =
   length (get_ncmonomials variables d)
     + alphabet_size variables ^ S (Z.to_nat d))%nat.
Proof.
  intros Hnd Hd.
  rewrite get_ncmonomials_words_upto, length_fmap, length_words_upto by done.
  split; [done|apply geometric_sum].
Qed.

Lemma get_ncmonomials_length_witness :
  NoDup [X0; A_op] ∧ 0 ≤ 2 ∧
  length (get_ncmonomials [X0; A_op] 2) =
    sum_list ((λ i, alphabet_size [X0; A_op] ^ i)%nat <$> seq 0 (S (Z.to_nat 2))) ∧
  (length (get_ncmonomials [X0; A_op] 2) * alphabet_size [X0; A_op] + 1 =
   length (get_ncmonomials [X0; A_op] 2)
     + alphabet_size [X0; A_op] ^ S (Z.to_nat 2))%nat.
Proof.
  assert (NoDup [X0; A_op]) as Hnd.
  { apply (bool_decide_unpack _). vm_compute. exact I. }
  assert (0 ≤ 2) as Hd by lia.
  split; [exact Hnd|]. split; [exact Hd|].
  exact (get_ncmonomials_length [X0; A_op] 2 Hnd Hd).
Defined.

(** ** Dependence on the list of generators *)

(** X12. Two lists with the same generators, in whatever order and with
    whatever repetitions, give results that are permutations of each
    other, hence of the same length, at every degree. *)
Theorem get_ncmonomials_same_generators (vs vs' : list operator) (d : Z) :
  (∀ g, g ∈ vs ↔ g ∈ vs') →
  get_ncmonomials vs d ≡ₚ get_ncmonomials vs' d ∧
  length (get_ncmonomials vs d) = length (get_ncmonomials vs' d).
Proof.
  intros Hsame.
  assert (get_ncmonomials vs d ≡ₚ get_ncmonomials vs' d) as Hperm.
  { apply NoDup_Permutation; [apply NoDup_get_ncmonomials..|].
    intros m. by apply get_ncmonomials_ext. }
  split; [done|]. by rewrite Hperm.
Qed.

Lemma get_ncmonomials_same_generators_witness :
  (∀ g, g ∈ [X0; A_op; X0] ↔ g ∈ [A_op; X0]) ∧
  get_ncmonomials [X0; A_op; X0] 2 ≡ₚ get_ncmonomials [A_op; X0] 2 ∧
  length (get_ncmonomials [X0; A_op; X0] 2) = length (get_ncmonomials [A_op; X0] 2).
Proof.
  assert (∀ g, g ∈ [X0; A_op; X0] ↔ g ∈ [A_op; X0]) as Hsame.
  { intros g. rewrite !elem_of_cons, elem_of_nil. tauto. }
  split; [exact Hsame|].
  exact (get_ncmonomials_same_generators [X0; A_op; X0] [A_op; X0] 2 Hsame).
Defined.

(** X13. Adding generators only adds monomials: when every generator of
    one list occurs in another, every monomial returned for the first
    list is returned for the second, at the same degree. *)
Theorem get_ncmonomials_more_generators (vs vs' : list operator) (d : Z) :
  (∀ g, g ∈ vs → g ∈ vs') →
  ∀ m, m ∈ get_ncmonomials vs d → m ∈ get_ncmonomials vs' d.
Proof.
  intros Hsub m. rewrite !elem_of_get_ncmonomials.
  intros (w & Hlen & Hw & ->). exists w. split; [done|]. split; [|done].
  eapply Forall_impl; [done|]. intros [g|g]; cbn; [auto|].
  intros [? ?]. auto.
Qed.

Lemma get_ncmonomials_more_generators_witness :
  (∀ g, g ∈ [X0] → g ∈ [A_op; X0]) ∧
  ∀ m, m ∈ get_ncmonomials [X0] 2 → m ∈ get_ncmonomials [A_op; X0] 2.
Proof.
  assert (∀ g, g ∈ [X0] → g ∈ [A_op; X0]) as Hsub.
  { intros g. rewrite !elem_of_cons, elem_of_nil. tauto. }
  split; [exact Hsub|].
  exact (get_ncmonomials_more_generators [X0] [A_op; X0] 2 Hsub).
Defined.

Lemma stable_dedup_drop_middle (xs ys zs : list Expr) :
  (∀ y, y ∈ ys → y ∈ xs) →
  stable_dedup (xs ++ ys ++ zs) = stable_dedup (xs ++ zs).
Proof.
  intros Hsub. rewrite !stable_dedup_app, filter_app. f_equal.
  rewrite filter_none, list_filter_filter.
  - cbn. apply list_filter_iff. intros y. split; [tauto|].
    intros Hy. split; [done|]. intros ?. apply Hy. auto.
  - apply Forall_forall. intros y Hy Hout.
    rewrite elem_of_stable_dedup in Hy. apply Hout. auto.
Qed.

Lemma round_later_duplicate l1 g l2 ms :
  g ∈ l1 →
  round (PyOne :: (Var <$> l1 ++ g :: l2)) ms =
  round (PyOne :: (Var <$> l1 ++ l2)) ms.
Proof.
  intros Hg. unfold round.
  rewrite !unique_stable_dedup, !fill_temp_closed.
  rewrite !fmap_app, fmap_cons, !bind_cons, !bind_app, bind_cons.
  rewrite !app_assoc.
  rewrite <-(app_assoc _ (ms ≫= products (Var g))).
  apply stable_dedup_drop_middle.
  intros y Hy. apply elem_of_app. right.
  apply list_elem_of_bind. exists (Var g). split; [done|].
  apply list_elem_of_fmap. by exists g.
Qed.

(** X14. A generator repeated later in the input list changes nothing, not
    even the order: with [g] among the generators before it, the result
    for the list containing the extra [g] equals the result for the list
    without it, at every degree. *)
Theorem get_ncmonomials_later_duplicate
    (l1 l2 : list operator) (g : operator) (d : Z) :
  g ∈ l1 →
  get_ncmonomials (l1 ++ g :: l2) d = get_ncmonomials (l1 ++ l2) d.
Proof.
  intros Hg. destruct l1 as [|a l1]; [by apply elem_of_nil in Hg|].
  change (get_ncmonomials ((a :: l1) ++ g :: l2) d)
    with (Nat.iter (Z.to_nat d)
            (round (PyOne :: (Var <$> (a :: l1) ++ g :: l2))) [S_One]).
  change (get_ncmonomials ((a :: l1) ++ l2) d)
    with (Nat.iter (Z.to_nat d)
            (round (PyOne :: (Var <$> (a :: l1) ++ l2))) [S_One]).
  induction (Z.to_nat d) as [|n IH]; [done|].
  rewrite !Nat.iter_succ, IH. by apply round_later_duplicate.
Qed.

Lemma get_ncmonomials_later_duplicate_witness :
  X0 ∈ [X0; A_op] ∧
  get_ncmonomials ([X0; A_op] ++ X0 :: [X1]) 2 =
  get_ncmonomials ([X0; A_op] ++ [X1]) 2.
Proof.
  assert (X0 ∈ [X0; A_op]) as Hin by left.
  split; [exact Hin|].
  exact (get_ncmonomials_later_duplicate [X0; A_op] [X1] X0 2 Hin).
Defined.

(** * Properties of [expectation_values] *)

Section expectation_values_properties.
Context {T : Type} (zero : T) (add : T → T → T) (mul : Z → T → T).

Lemma exp_value_loop_error (M : list (list T)) outcomes k l :
  foldl (exp_value_step add mul M outcomes k) IndexError l = IndexError.
Proof. induction l as [|i l IH]; [done|]. exact IH. Qed.

Lemma exp_values_loop_error (M : list (list T)) outcomes l :
  foldl (exp_values_step zero add mul M outcomes) IndexError l = IndexError.
Proof. induction l as [|i l IH]; [done|]. exact IH. Qed.

Lemma weighted_sum_snoc (row : list Z) (Mk : list T) c x :
  length row = length Mk →
  weighted_sum zero add mul (row ++ [c]) (Mk ++ [x]) =
  add (weighted_sum zero add mul row Mk) (mul c x).
Proof.
  intros Hlen. unfold weighted_sum.
  by rewrite zip_with_app, foldl_app.
Qed.

Lemma exp_value_loop_prefix (M : list (list T)) outcomes k Mk row n :
  M !! k = Some Mk →
  outcomes !! k = Some row →
  (n ≤ length Mk)%nat →
  (n ≤ length row)%nat →
  foldl (exp_value_step add mul M outcomes k) (Val zero) (seq 0 n) =
  Val (weighted_sum zero add mul (take n row) (take n Mk)).
Proof.
  intros HMk Hrow. induction n as [|n IH]; intros Hn1 Hn2; [done|].
  rewrite seq_S, foldl_app, IH by lia. cbn [foldl Nat.add].
  destruct (lookup_lt_is_Some_2 Mk n) as [x Hx]; [lia|].
  destruct (lookup_lt_is_Some_2 row n) as [c Hc]; [lia|].
  rewrite (take_S_r row n c), (take_S_r Mk n x) by done.
  rewrite weighted_sum_snoc by (rewrite !length_take; lia).
  generalize (weighted_sum zero add mul (take n row) (take n Mk)).
  intros acc. unfold exp_value_step, getitem. cbn.
  rewrite Hrow. cbn. rewrite Hc. cbn. rewrite HMk. cbn. by rewrite Hx.
Qed.

Lemma exp_value_loop_total (M : list (list T)) outcomes k Mk :
  M !! k = Some Mk →
  (Mk ≠ [] → ∃ row, outcomes !! k = Some row ∧ (length Mk ≤ length row)%nat) →
  foldl (exp_value_step add mul M outcomes k) (Val zero) (seq 0 (length Mk)) =
  Val (weighted_sum zero add mul (default [] (outcomes !! k)) Mk).
Proof.
  intros HMk Hshape. destruct (decide (Mk = [])) as [->|Hne].
  - unfold weighted_sum. by rewrite zip_with_nil_r.
  - destruct (Hshape Hne) as (row & Hrow & Hlen).
    rewrite (exp_value_loop_prefix M outcomes k Mk row) by (done || lia).
    rewrite Hrow, firstn_all. cbn [default]. unfold weighted_sum.
    by rewrite zip_with_take_l.
Qed.

Lemma exp_values_loop_prefix (M : list (list T)) outcomes n :
  (∀ k Mk, M !! k = Some Mk → Mk ≠ [] →
     ∃ row, outcomes !! k = Some row ∧ (length Mk ≤ length row)%nat) →
  (n ≤ length M)%nat →
  foldl (exp_values_step zero add mul M outcomes) (Val []) (seq 0 n) =
  Val (imap (λ k Mk, weighted_sum zero add mul (default [] (outcomes !! k)) Mk)
         (take n M)).
Proof.
  intros Hshape. induction n as [|n IH]; intros Hn; [done|].
  rewrite seq_S, foldl_app, IH by lia. cbn [foldl Nat.add].
  destruct (lookup_lt_is_Some_2 M n) as [Mk HMk]; [lia|].
  unfold exp_values_step at 1. unfold getitem. cbn. rewrite HMk. cbn.
  rewrite (exp_value_loop_total M outcomes n Mk) by eauto. cbn.
  rewrite (take_S_r M n Mk), imap_app by done. cbn.
  rewrite length_take_le, Nat.add_0_r by lia. done.
Qed.

(** X15. When every non-empty row [M[k]] has a row [outcomes[k]] at
    least as long, [expectation_values] returns one value per row of
    [M]: the sum, added up from the left starting at [0], of the
    products [outcomes[k][i]*M[k][i]].  Outcomes beyond the length of a
    row, rows of outcomes beyond the rows of [M], and missing rows of
    outcomes for empty rows of [M] play no part. *)
Theorem expectation_values_weighted_sums
    (M : list (list T)) (outcomes : list (list Z)) :
  (∀ k Mk, M !! k = Some Mk → Mk ≠ [] →
     ∃ row, outcomes !! k = Some row ∧ (length Mk ≤ length row)%nat) →
  ∃ exp_values,
    expectation_values zero add mul M outcomes = Val exp_values ∧
    length exp_values = length M ∧
    ∀ k Mk, M !! k = Some Mk →
      exp_values !! k =
      Some (weighted_sum zero add mul (default [] (outcomes !! k)) Mk).
Proof.
  intros Hshape. eexists. split; [|split].
  - unfold expectation_values.
    rewrite exp_values_loop_prefix by done. by rewrite firstn_all.
  - by rewrite length_imap.
  - intros k Mk HMk. by rewrite list_lookup_imap, HMk.
Qed.

Lemma exp_value_loop_short (M : list (list T)) outcomes k Mk :
  M !! k = Some Mk →
  Mk ≠ [] →
  (∀ row, outcomes !! k = Some row → (length row < length Mk)%nat) →
  foldl (exp_value_step add mul M outcomes k) (Val zero) (seq 0 (length Mk)) =
  IndexError.
Proof.
  intros HMk Hne Hshort. destruct (outcomes !! k) as [row|] eqn:Hrow.
  - specialize (Hshort row eq_refl).
    replace (length Mk) with (length row + S (length Mk - S (length row)))%nat
      by lia.
    rewrite seq_app, foldl_app. cbn [seq foldl Nat.add].
    destruct (foldl _ (Val zero) (seq 0 (length row))) as [acc|].
    + unfold exp_value_step at 2. unfold getitem. cbn.
      rewrite Hrow. cbn. rewrite (lookup_ge_None_2 row) by lia. cbn.
      apply exp_value_loop_error.
    + cbn. apply exp_value_loop_error.
  - destruct Mk as [|x Mk]; [done|]. cbn [length seq foldl].
    unfold exp_value_step at 2. unfold getitem. cbn. rewrite Hrow. cbn.
    apply exp_value_loop_error.
Qed.

(** X16. When some non-empty row [M[k]] has no row [outcomes[k]], or one
    that is shorter than [M[k]], the subscript [outcomes[k][i]] goes out
    of range and [expectation_values] ends with an [IndexError] instead
    of a result. *)
Theorem expectation_values_index_error
    (M : list (list T)) (outcomes : list (list Z)) (k : nat) (Mk : list T) :
  M !! k = Some Mk →
  Mk ≠ [] →
  (∀ row, outcomes !! k = Some row → (length row < length Mk)%nat) →
  expectation_values zero add mul M outcomes = IndexError.
Proof.
  intros HMk Hne Hshort. unfold expectation_values.
  assert (k < length M)%nat as Hk by (by eapply lookup_lt_Some).
  replace (length M) with (k + S (length M - S k))%nat by lia.
  rewrite seq_app, foldl_app. cbn [seq foldl Nat.add].
  destruct (foldl _ (Val []) (seq 0 k)) as [acc|].
  - unfold exp_values_step at 2. unfold getitem. cbn. rewrite HMk. cbn.
    rewrite exp_value_loop_short by done. cbn.
    apply exp_values_loop_error.
  - cbn. apply exp_values_loop_error.
Qed.
End expectation_values_properties.

Lemma expectation_values_weighted_sums_witness :
  (∀ k Mk, [[3; 4]; []; [5]] !! k = Some Mk → Mk ≠ [] →
     ∃ row, [[1; -1]; []; [1; -1; 7]] !! k = Some row ∧
            (length Mk ≤ length row)%nat) ∧
  ∃ exp_values,
    expectation_values 0 Z.add Z.mul [[3; 4]; []; [5]] [[1; -1]; []; [1; -1; 7]]
      = Val exp_values ∧
    length exp_values = length [[3; 4]; []; [5]] ∧
    ∀ k Mk, [[3; 4]; []; [5]] !! k = Some Mk →
      exp_values !! k =
      Some (weighted_sum 0 Z.add Z.mul
              (default [] ([[1; -1]; []; [1; -1; 7]] !! k)) Mk).
Proof.
  assert (∀ k Mk, [[3; 4]; []; [5]] !! k = Some Mk → Mk ≠ [] →
     ∃ row, [[1; -1]; []; [1; -1; 7]] !! k = Some row ∧
            (length Mk ≤ length row)%nat) as Hshape.
  { intros [|[|[|k]]] Mk HMk Hne; cbn in HMk; simplify_eq.
    - exists [1; -1]. split; [reflexivity|cbn; lia].
    - exists [1; -1; 7]. split; [reflexivity|cbn; lia]. }
  split; [exact Hshape|].
  exact (expectation_values_weighted_sums 0 Z.add Z.mul
           [[3; 4]; []; [5]] [[1; -1]; []; [1; -1; 7]] Hshape).
Defined.

Lemma expectation_values_index_error_witness :
  [[3; 4]; [5; 6]] !! 1%nat = Some [5; 6] ∧
  [5; 6] ≠ [] ∧
  (∀ row, [[1; -1]; [1]] !! 1%nat = Some row → (length row < length [5; 6])%nat) ∧
  expectation_values 0 Z.add Z.mul [[3; 4]; [5; 6]] [[1; -1]; [1]] = IndexError.
Proof.
  assert (∀ row, [[1; -1]; [1]] !! 1%nat = Some row →
                 (length row < length [5; 6])%nat) as Hshort.
  { intros row Hrow. cbn in Hrow. simplify_eq. cbn. lia. }
  split; [reflexivity|]. split; [discriminate|]. split; [exact Hshort|].
  apply (expectation_values_index_error 0 Z.add Z.mul
           [[3; 4]; [5; 6]] [[1; -1]; [1]] 1 [5; 6]);
    [reflexivity|discriminate|exact Hshort].
Defined.
